(** * The DNC memory module ([scratch/layers/dnc/memory.py])

    A shallow embedding of the [Memory] class: content addressing,
    allocation weighting, the read-weight blend and the read/write cycle
    [forward].  Tensors are nested lists, indexed as in the source
    (batch first); floating-point numbers are idealised as real numbers,
    and the attributes of [self] that a method assigns are threaded
    through as an explicit state record. *)

From Stdlib Require Import Reals Lra Lia List Arith.
Import ListNotations.

Open Scope R_scope.

(** ** Tensors *)

Abbreviation vec := (list R).
Abbreviation mat := (list (list R)).
Abbreviation tensor3 := (list (list (list R))).

Fixpoint zip_with {A B C : Type} (f : A -> B -> C)
  (a : list A) (b : list B) : list C :=
  match a, b with
  | x :: a', y :: b' => f x y :: zip_with f a' b'
  | _, _ => []
  end.

(** Elementwise combination along one dimension with torch's broadcasting
    rule: a side of extent 1 is stretched to the extent of the other. *)
Definition bzip {A B C : Type} (f : A -> B -> C)
  (a : list A) (b : list B) : list C :=
  match a, b with
  | [x], _ => map (f x) b
  | _, [y] => map (fun x => f x y) a
  | _, _ => zip_with f a b
  end.

Definition vop (f : R -> R -> R) : vec -> vec -> vec := bzip f.
Definition mop (f : R -> R -> R) : mat -> mat -> mat := bzip (vop f).
Definition top (f : R -> R -> R) : tensor3 -> tensor3 -> tensor3 :=
  bzip (mop f).

Definition tmap (f : R -> R) (t : tensor3) : tensor3 := map (map (map f)) t.

(** [1 - t] for a tensor [t] *)
Definition one_minus (t : tensor3) : tensor3 := tmap (fun x => 1 - x) t.

Definition vsum (v : vec) : R := fold_right Rplus 0 v.
Definition msum (m : mat) : R := vsum (map vsum m).
(** [torch.sum(t)]: the sum of all the entries of [t] *)
Definition tsum (t : tensor3) : R := vsum (map msum t).

Definition vprod (v : vec) : R := fold_right Rmult 1 v.

Definition dot (x y : vec) : R := vsum (zip_with Rmult x y).

Definition ncols (m : mat) : nat := length (hd [] m).
Definition column (j : nat) (m : mat) : vec := map (fun r => nth j r 0) m.

Definition transpose (m : mat) : mat :=
  map (fun j => column j m) (seq 0 (ncols m)).

Definition matmul (a b : mat) : mat :=
  map (fun r => map (fun j => dot r (column j b)) (seq 0 (ncols b))) a.

(** [torch.bmm] *)
Definition bmm (a b : tensor3) : tensor3 := zip_with matmul a b.

(** [torch.transpose(t, 1, 2)] *)
Definition transpose12 (t : tensor3) : tensor3 := map transpose t.

(** [t.repeat(1, 1, k)] and [t.repeat(1, k, 1)] *)
Definition repeat_last (k : nat) (t : tensor3) : tensor3 :=
  map (map (fun r => concat (repeat r k))) t.
Definition repeat_rows (k : nat) (t : tensor3) : tensor3 :=
  map (fun m => concat (repeat m k)) t.

Definition ones3 (b n k : nat) : tensor3 := repeat (repeat (repeat 1 k) n) b.
Definition ones2 (b n : nat) : mat := repeat (repeat 1 n) b.

(** [t[:, :, i]] and the assignment [t[:, :, i] = c] *)
Fixpoint upd (i : nat) (x : R) (r : vec) : vec :=
  match r, i with
  | [], _ => []
  | _ :: r', O => x :: r'
  | y :: r', S i' => y :: upd i' x r'
  end.

Definition get_last (i : nat) (t : tensor3) : mat :=
  map (map (fun r => nth i r 0)) t.
Definition set_last (i : nat) (t : tensor3) (c : mat) : tensor3 :=
  zip_with (zip_with (fun r x => upd i x r)) t c.

(** ** Library functions of torch *)

Definition eps : R := 1 / 100000000.

Definition norm (x : vec) : R := sqrt (dot x x).

Definition cosine (x y : vec) : R := dot x y / Rmax (norm x * norm y) eps.

(** [nn.CosineSimilarity()] (dim=1, eps=1e-8) on two matrices, the first
    dimension broadcast *)
Definition cos_similarity (x1 x2 : mat) : vec := bzip cosine x1 x2.

(** [functional.softmax(v, dim=0)] on a vector *)
Definition softmax (v : vec) : vec :=
  map (fun x => exp x / vsum (map exp v)) v.

(** [functional.softmax(m, dim=0)] on a matrix: every column is normalised
    over the rows of [m] *)
Definition softmax_dim0 (m : mat) : mat :=
  map (fun r =>
         map (fun j => exp (nth j r 0) / vsum (map exp (column j m)))
             (seq 0 (length r))) m.

(** [torch.sort(v)[1]]: the indices that sort [v] in ascending order *)
Fixpoint insert_idx (p : nat * R) (l : list (nat * R)) : list (nat * R) :=
  match l with
  | [] => [p]
  | q :: l' =>
      if Rle_dec (snd p) (snd q) then p :: l else q :: insert_idx p l'
  end.

Definition argsort (v : vec) : list nat :=
  map fst (fold_right insert_idx [] (combine (seq 0 (length v)) v)).

(** ** The module state and the interface *)

Record Memory := mkMemory {
  memory_size : nat * nat;     (* (num_cells, cell_size) *)
  num_read_heads : nat;
  batch_size : nat;
  memory : tensor3;            (* (Batch, N, W) *)
  temporal_link : tensor3;     (* (Batch, N, N) *)
  usage : tensor3;             (* (Batch, 1, N) *)
  allocation : tensor3;        (* (Batch, 1, N) *)
  precedence : tensor3;        (* (Batch, 1, N) *)
  read_weights : tensor3       (* (Batch, #RH, N) *)
}.

(** The fields of the interface object that [forward] reads, with the
    shapes its tensor operations require. *)
Record Interface := mkInterface {
  write_key : mat;             (* (Batch, W) *)
  write_strength : mat;        (* (Batch, 1) *)
  allocation_gate : tensor3;   (* (Batch, 1, 1) *)
  write_gate : tensor3;        (* (Batch, 1, 1) *)
  erase_vector : tensor3;      (* (Batch, 1, W) *)
  write_vector : tensor3;      (* (Batch, 1, W) *)
  read_keys : tensor3;         (* (Batch, #RH, W) *)
  read_strength : tensor3;     (* (Batch, #RH, 1) *)
  read_modes : tensor3;        (* (Batch, #RH, 3) *)
  free_gates : tensor3         (* (Batch, #RH, 1) *)
}.

Definition set_read_weights (s : Memory) (t : tensor3) : Memory :=
  mkMemory (memory_size s) (num_read_heads s) (batch_size s) (memory s)
    (temporal_link s) (usage s) (allocation s) (precedence s) t.

Definition set_allocation (s : Memory) (t : tensor3) : Memory :=
  mkMemory (memory_size s) (num_read_heads s) (batch_size s) (memory s)
    (temporal_link s) (usage s) t (precedence s) (read_weights s).

(** ** Content addressing *)

(** [Memory.write_addressing_] *)
Definition write_addressing_ (s : Memory) (key strength : mat) : tensor3 :=
  let key := map (fun k => [k]) key in
  map (fun i =>
         softmax_dim0
           (mop Rmult [cos_similarity (nth i key []) (nth i (memory s) [])]
                      [nth i strength []]))
      (seq 0 (batch_size s)).

(** [Memory.read_addressing_] *)
Definition read_addressing_ (s : Memory) (key strength : tensor3) : tensor3 :=
  let key := map (map (fun k => [k])) key in
  map (fun i =>
         let batch_key := nth i key [] in
         let batch_weight := nth i strength [] in
         let similarities :=
           map (fun j =>
                  softmax (cos_similarity (nth j batch_key [])
                                          (nth i (memory s) [])))
               (seq 0 (num_read_heads s)) in
         mop Rmult similarities batch_weight)
      (seq 0 (batch_size s)).

(** ** Allocation weighting *)

(** [torch.sort(t, dim=2)[1]] *)
Definition sort_idx (t : tensor3) : list (list (list nat)) :=
  map (map argsort) t.

(** One iteration of the loop of [get_allocation_], on the pair of the
    allocation tensor and [multiply]. *)
Definition allocation_step (u : tensor3) (st : tensor3 * mat) (i : nat)
  : tensor3 * mat :=
  let '(alloc, multiply) := st in
  (set_last i alloc
     (mop Rmult (map (map (fun x => 1 - x)) (get_last i u)) multiply),
   mop Rmult multiply (get_last i u)).

(** [Memory.get_allocation_]: updates [self.allocation] and returns it. *)
Definition get_allocation_ (s : Memory) : Memory :=
  let idx := sort_idx (usage s) in
  let multiply := ones2 (batch_size s) 1 in
  let shape2 := length (hd [] (hd [] idx)) in
  set_allocation s
    (fst (fold_left (allocation_step (usage s)) (seq 0 shape2)
            (allocation s, multiply))).

(** ** Read weighting *)

(** [t[:, :, k].unsqueeze(dim=2)] *)
Definition slice_last (k : nat) (t : tensor3) : tensor3 :=
  map (map (fun r => [nth k r 0])) t.

(** [Memory.get_read_weight_]: updates [self.read_weights] and returns it. *)
Definition get_read_weight_ (s : Memory) (interface : Interface) : Memory :=
  let transpose_temporal_link := transpose12 (temporal_link s) in
  let forward_weights := bmm (read_weights s) transpose_temporal_link in
  let backward_weights := bmm (read_weights s) (temporal_link s) in
  let content_weights :=
    read_addressing_ s (read_keys interface) (read_strength interface) in
  let forward_modes := slice_last 0 (read_modes interface) in
  let backward_modes := slice_last 1 (read_modes interface) in
  let content_modes := slice_last 2 (read_modes interface) in
  set_read_weights s
    (top Rplus
       (top Rplus (top Rmult forward_weights forward_modes)
                  (top Rmult backward_weights backward_modes))
       (top Rmult content_weights content_modes)).

(** ** The read and write cycle *)

(** [t[:, i, :]] *)
Definition get_mid (i : nat) (t : tensor3) : mat := map (fun m => nth i m []) t.

(** The loop of [forward] that builds the retention vector from the free
    gates and the tensor bound to [old_read_weights]. *)
Definition retention_step (free_gates old_read_weights : tensor3)
  (retention_vector : tensor3) (i : nat) : tensor3 :=
  top Rmult retention_vector
    (map (fun r => [r])
       (map (map (fun x => 1 - x))
          (mop Rmult (get_mid i free_gates) (get_mid i old_read_weights)))).

Definition retention (s : Memory) (free_gates old_read_weights : tensor3)
  : tensor3 :=
  fold_left (retention_step free_gates old_read_weights)
    (seq 0 (num_read_heads s))
    (ones3 (batch_size s) 1 (fst (memory_size s))).

(** The write weights of [forward], from the allocation weights and the
    content addressing of the write key. *)
Definition blend_write_weights (interface : Interface)
  (allocation_weight write_content_address : tensor3) : tensor3 :=
  let write_weights :=
    top Rplus
      (top Rmult (allocation_gate interface)
         (top Rminus allocation_weight write_content_address))
      write_content_address in
  top Rmult write_weights (write_gate interface).

(** "Perform the write": erase, then add. *)
Definition write_memory (memory_ transposed_write_weights : tensor3)
  (interface : Interface) : tensor3 :=
  let memory1 :=
    top Rmult memory_
      (one_minus (bmm transposed_write_weights (erase_vector interface))) in
  top Rplus memory1 (bmm transposed_write_weights (write_vector interface)).

(** "Update the temporal linkage": the new temporal link. *)
Definition update_temporal_link (num_cells : nat)
  (write_weights transposed_write_weights temporal_link_ precedence_ : tensor3)
  : tensor3 :=
  let grid_sum :=
    top Rplus (repeat_last num_cells transposed_write_weights)
              (repeat_rows num_cells write_weights) in
  let grid_subtract := one_minus grid_sum in
  top Rplus (top Rmult grid_subtract temporal_link_)
            (bmm transposed_write_weights precedence_).

(** The new precedence; [torch.sum(write_weights)] has no [dim] argument
    and sums the whole tensor. *)
Definition update_precedence (write_weights precedence_ : tensor3) : tensor3 :=
  top Rplus (tmap (fun x => (1 - tsum write_weights) * x) precedence_)
            write_weights.

(** "Update usage vector": the new usage. *)
Definition update_usage (old_usage write_weights retention_vector : tensor3)
  : tensor3 :=
  top Rmult
    (top Rminus (top Rplus old_usage write_weights)
                (top Rmult old_usage write_weights))
    retention_vector.

(** The write weights that [forward] computes in state [s], after
    [get_allocation_] has run. *)
Definition write_weights_of (s : Memory) (interface : Interface) : tensor3 :=
  let allocation_weight := allocation s in
  let write_content_address :=
    write_addressing_ s (write_key interface) (write_strength interface) in
  blend_write_weights interface allocation_weight write_content_address.

(** [Memory.forward]: the new state and the read result. *)
Definition forward (s : Memory) (interface : Interface) : Memory * tensor3 :=
  (* Read *)
  let s := get_read_weight_ s interface in
  let read_weights_ := read_weights s in
  let read_result := bmm read_weights_ (memory s) in
  (* Compute allocation weights *)
  let s := get_allocation_ s in
  (* Perform the write *)
  let write_weights := write_weights_of s interface in
  let transposed_write_weights := transpose12 write_weights in
  let memory' := write_memory (memory s) transposed_write_weights interface in
  (* Update the temporal linkage *)
  let num_cells := fst (memory_size s) in
  let temporal_link' :=
    update_temporal_link num_cells write_weights transposed_write_weights
      (temporal_link s) (precedence s) in
  let precedence' := update_precedence write_weights (precedence s) in
  (* Update usage vector *)
  let old_read_weights := read_weights s in
  let retention_vector := retention s (free_gates interface) old_read_weights in
  let old_usage := usage s in
  let usage' := update_usage old_usage write_weights retention_vector in
  (mkMemory (memory_size s) (num_read_heads s) (batch_size s) memory'
     temporal_link' usage' (allocation s) precedence' (read_weights s),
   read_result).

(** ** Shapes *)

Definition shape1 (n : nat) (v : vec) : Prop := length v = n.
Definition shape2 (a b : nat) (m : mat) : Prop :=
  length m = a /\ Forall (shape1 b) m.
Definition shape3 (a b c : nat) (t : tensor3) : Prop :=
  length t = a /\ Forall (shape2 b c) t.


(** ** Inputs of the unit tests ([scratch/test/dnc_memory_test.py]) *)

Definition zeros3 (b n k : nat) : tensor3 := repeat (repeat (repeat 0 k) n) b.

Definition test_memory : tensor3 :=
  [ [ [1; -1; -1; 1]; [4; 5; 6; 7]; [-1; 1; 1; -1] ];
    [ [12; 16; 14; 10]; [1; -1; 1; -1]; [-1; 1; -1; 1] ] ].

(** A module with two batch elements, three rows of width four and two
    read heads, holding the memory matrix of the tests. *)
Definition test_module : Memory :=
  mkMemory (3%nat, 4%nat) 2 2 test_memory (zeros3 2 3 3) (zeros3 2 1 3)
    (zeros3 2 1 3) (zeros3 2 1 3) (zeros3 2 2 3).

Definition test_write_keys : mat := [ [4; 5; 6; 7]; [12; 16; 14; 10] ].
Definition test_write_strength : mat := [ [1]; [1 / 2] ].

Definition test_read_keys : tensor3 :=
  [ [ [4; 5; 6; 7]; [4; 5; 6; 7] ]; [ [12; 16; 14; 10]; [12; 16; 14; 12] ] ].
Definition test_read_strength : tensor3 := [ [ [1]; [2] ]; [ [2]; [1] ] ].

(** ** The allocation loop on one row *)

(** What the loop of [get_allocation_] leaves in a row of the allocation
    tensor whose usage row is [u], when it starts with [multiply = mult]:
    the rows are visited in storage order. *)
Fixpoint alloc_from (mult : R) (u : vec) : vec :=
  match u with
  | [] => []
  | x :: u' => (1 - x) * mult :: alloc_from (mult * x) u'
  end.

(** The loop body on one usage row [u], its allocation row and its entry
    of [multiply]. *)
Definition row_step (u : vec) (st : vec * R) (i : nat) : vec * R :=
  (upd i ((1 - nth i u 0) * snd st) (fst st), snd st * nth i u 0).

(** The loop body on the rows of all batch elements. *)
Definition rows_step (us : list vec) (st : list vec * list R) (i : nat)
  : list vec * list R :=
  (zip_with (fun r x => upd i x r) (fst st)
     (zip_with Rmult (map (fun u => 1 - nth i u 0) us) (snd st)),
   zip_with Rmult (snd st) (map (fun u => nth i u 0) us)).

Definition wrap {A : Type} (x : A) : list A := [x].

(** ** Vocabulary of the statements *)

Definition in01 (x : R) : Prop := 0 <= x <= 1.

(** [t[b, 0, :]] *)
Definition row0 (b : nat) (t : tensor3) : vec := nth 0 (nth b t []) [].

(** The allocation weighting in the words of the design: sort the rows by
    ascending usage, walk that permutation with a running product of the
    usages seen so far, and map the weights back to the original order. *)
Definition allocation_by_rank (u : vec) : vec :=
  let idx := argsort u in
  let sorted_usage := map (fun j => nth j u 0) idx in
  let sorted_allocation := alloc_from 1 sorted_usage in
  fold_left (fun acc p => upd (fst p) (snd p) acc)
    (combine idx sorted_allocation) (repeat 0 (length u)).

(** A module with one batch element and two rows, the first of usage 1/2
    and the second of usage 1/4. *)
Definition two_rows : Memory :=
  mkMemory (2%nat, 1%nat) 1 1 (zeros3 1 2 1) (zeros3 1 2 2)
    [ [ [1 / 2; 1 / 4] ] ] (zeros3 1 1 2) (zeros3 1 1 2) (zeros3 1 1 2).

(** ** Small modules and interfaces *)

(** One batch element, one row of width one, one read head, after
    [reset]. *)
Definition one_cell : Memory :=
  mkMemory (1%nat, 1%nat) 1 1 [ [ [0] ] ] [ [ [0] ] ] [ [ [0] ] ] [ [ [0] ] ]
    [ [ [0] ] ] [ [ [0] ] ].

(** An interface for [one_cell] that writes the value [v] by content
    addressing (write gate 1, allocation gate 0, no erasure) and reads by
    content (read modes (0, 0, 1), strength 1), with free gate [fg]. *)
Definition write_value (v fg : R) : Interface :=
  mkInterface [ [1] ] [ [1] ] [ [ [0] ] ] [ [ [1] ] ] [ [ [0] ] ] [ [ [v] ] ]
    [ [ [1] ] ] [ [ [1] ] ] [ [ [0; 0; 1] ] ] [ [ [fg] ] ].

(** The same interface with the write gate closed. *)
Definition write_nothing (fg : R) : Interface :=
  mkInterface [ [1] ] [ [1] ] [ [ [0] ] ] [ [ [0] ] ] [ [ [0] ] ] [ [ [1] ] ]
    [ [ [1] ] ] [ [ [1] ] ] [ [ [0; 0; 1] ] ] [ [ [fg] ] ].

(** [one_cell] after one step with [write_value 1 0]. *)
Definition one_cell_written : Memory :=
  mkMemory (1%nat, 1%nat) 1 1 [ [ [1] ] ] [ [ [0] ] ] [ [ [1] ] ] [ [ [1] ] ]
    [ [ [1] ] ] [ [ [1] ] ].

(** Two batch elements of one row each, after [reset]. *)
Definition two_cells : Memory :=
  mkMemory (1%nat, 1%nat) 1 2 [ [ [0] ]; [ [0] ] ] [ [ [0] ]; [ [0] ] ]
    [ [ [0] ]; [ [0] ] ] [ [ [0] ]; [ [0] ] ] [ [ [0] ]; [ [0] ] ]
    [ [ [0] ]; [ [0] ] ].

(** An interface for [two_cells]: both batch elements read by content with
    free gate 0 and write the value 1 by content addressing; the write gate
    is [g0] in the first batch element and [g1] in the second. *)
Definition write_gates (g0 g1 : R) : Interface :=
  mkInterface [ [1]; [1] ] [ [1]; [1] ] [ [ [0] ]; [ [0] ] ]
    [ [ [g0] ]; [ [g1] ] ] [ [ [0] ]; [ [0] ] ] [ [ [1] ]; [ [1] ] ]
    [ [ [1] ]; [ [1] ] ] [ [ [1] ]; [ [1] ] ]
    [ [ [0; 0; 1] ]; [ [0; 0; 1] ] ] [ [ [0] ]; [ [0] ] ].

(** [two_cells] after one step with [write_gates 1 1]. *)
Definition two_cells_written : Memory :=
  mkMemory (1%nat, 1%nat) 1 2 [ [ [1] ]; [ [1] ] ] [ [ [0] ]; [ [0] ] ]
    [ [ [1] ]; [ [1] ] ] [ [ [1] ]; [ [1] ] ] [ [ [1] ]; [ [1] ] ]
    [ [ [1] ]; [ [1] ] ].

Definition nonneg (x : R) : Prop := 0 <= x.
(** Every entry of a tensor satisfies [P]. *)
Definition all3 (P : R -> Prop) (t : tensor3) : Prop :=
  Forall (Forall (Forall P)) t.
Definition nonneg3 (t : tensor3) : Prop := all3 nonneg t.
Definition all01 (t : tensor3) : Prop := all3 in01 t.


(** [t[b, i, j]] *)
Definition entry (b i j : nat) (t : tensor3) : R :=
  nth j (nth i (nth b t []) []) 0.

Definition const3 (a b c : nat) (k : R) : tensor3 :=
  repeat (repeat (repeat k c) b) a.

(** The shapes of the state of a module with [b] batch elements, [n] rows
    of width [w] and [r] read heads. *)
Record wf_memory (b n w r : nat) (s : Memory) : Prop := {
  wf_batch_size : batch_size s = b;
  wf_memory_size : memory_size s = (n, w);
  wf_num_read_heads : num_read_heads s = r;
  wf_mem : shape3 b n w (memory s);
  wf_link : shape3 b n n (temporal_link s);
  wf_usage : shape3 b 1 n (usage s);
  wf_allocation : shape3 b 1 n (allocation s);
  wf_precedence : shape3 b 1 n (precedence s);
  wf_read_weights : shape3 b r n (read_weights s)
}.

(** The shapes of the fields of an interface for such a module. *)
Record wf_interface (b w r : nat) (itf : Interface) : Prop := {
  wf_write_key : shape2 b w (write_key itf);
  wf_write_strength : shape2 b 1 (write_strength itf);
  wf_allocation_gate : shape3 b 1 1 (allocation_gate itf);
  wf_write_gate : shape3 b 1 1 (write_gate itf);
  wf_erase_vector : shape3 b 1 w (erase_vector itf);
  wf_write_vector : shape3 b 1 w (write_vector itf);
  wf_read_keys : shape3 b r w (read_keys itf);
  wf_read_strength : shape3 b r 1 (read_strength itf);
  wf_read_modes : shape3 b r 3 (read_modes itf);
  wf_free_gates : shape3 b r 1 (free_gates itf)
}.

(** The write weights of a step that starts in state [s]. *)
Definition step_write_weights (s : Memory) (itf : Interface) : tensor3 :=
  blend_write_weights itf (allocation (get_allocation_ s))
    (write_addressing_ s (write_key itf) (write_strength itf)).

(** [m[i, j]] *)
Definition mentry (i j : nat) (m : mat) : R := nth j (nth i m []) 0.



(** One batch element and two rows, the first free (usage 0) and the
    second of usage 1/2. *)
Definition free_row_first : Memory :=
  mkMemory (2%nat, 1%nat) 1 1 (zeros3 1 2 1) (zeros3 1 2 2)
    [ [ [0; 1 / 2] ] ] (zeros3 1 1 2) (zeros3 1 1 2) (zeros3 1 1 2).

(** ** Lists, broadcasting and sums *)

Section ListFacts.
Context {A B C : Type}.
Variable f : A -> B -> C.

Lemma zip_with_length (a : list A) (b : list B) :
  length (zip_with f a b) = Nat.min (length a) (length b).
Proof.
  revert b; induction a as [|x a IH]; intros [|y b]; simpl; auto.
Qed.

Lemma zip_with_nth (a : list A) (b : list B) i da db dc :
  (i < length a)%nat -> (i < length b)%nat ->
  nth i (zip_with f a b) dc = f (nth i a da) (nth i b db).
Proof.
  revert b i; induction a as [|x a IH]; intros [|y b] [|i]; simpl;
    intros; try lia; auto.
  apply IH; lia.
Qed.

Lemma bzip_same_length (a : list A) (b : list B) :
  length a = length b -> bzip f a b = zip_with f a b.
Proof.
  destruct a as [|x [|x' a]], b as [|y [|y' b]]; simpl; intros H;
    try discriminate; reflexivity.
Qed.

Lemma bzip_single_r (a : list A) (y : B) :
  bzip f a [y] = map (fun x => f x y) a.
Proof. destruct a as [|x [|x' a]]; reflexivity. Qed.

Lemma bzip_single_l (x : A) (b : list B) : bzip f [x] b = map (f x) b.
Proof. reflexivity. Qed.
End ListFacts.

(** Equality of two explicit tensors, entry by entry. *)
Ltac tensor_eq :=
  lazymatch goal with
  | |- @eq R _ _ => first [lra | field; lra]
  | |- cons _ _ = cons _ _ => apply f_equal2; tensor_eq
  | |- _ => reflexivity
  end.

Lemma nth_map_seq {A : Type} (g : nat -> A) (n i : nat) (d : A) :
  (i < n)%nat -> nth i (map g (seq 0 n)) d = g i.
Proof.
  intros H.
  rewrite (nth_indep _ d (g 0%nat)) by (rewrite length_map, length_seq; lia).
  rewrite (map_nth g (seq 0 n) 0%nat i), seq_nth by lia. reflexivity.
Qed.

Lemma nth_map_lt {A B : Type} (g : A -> B) (l : list A) i (d : B) (d' : A) :
  (i < length l)%nat -> nth i (map g l) d = g (nth i l d').
Proof.
  intros H. rewrite (nth_indep _ d (g d')) by (rewrite length_map; lia).
  apply map_nth.
Qed.

Lemma vsum_scale (c : R) (v : vec) :
  vsum (map (fun x => x * c) v) = vsum v * c.
Proof. induction v as [|x v IH]; simpl; [lra | rewrite IH; lra]. Qed.

Lemma vsum_div (c : R) (v : vec) :
  vsum (map (fun x => x / c) v) = vsum v / c.
Proof. unfold Rdiv. apply vsum_scale. Qed.

Lemma vsum_exp_pos (v : vec) : v <> [] -> 0 < vsum (map exp v).
Proof.
  intros Hv. destruct v as [|x v]; [congruence|]. clear Hv. simpl.
  assert (H : 0 <= vsum (map exp v)).
  { induction v as [|y v IH]; simpl; [lra|]. pose proof (exp_pos y). lra. }
  pose proof (exp_pos x). lra.
Qed.

(** A softmax over a non-empty vector is a probability distribution. *)
Lemma softmax_sum (v : vec) : v <> [] -> vsum (softmax v) = 1.
Proof.
  intros Hv. unfold softmax.
  rewrite <- (map_map exp (fun y => y / vsum (map exp v))), vsum_div.
  pose proof (vsum_exp_pos v Hv). field. lra.
Qed.


(** A softmax along a dimension of extent 1 returns 1 everywhere. *)
Lemma softmax_dim0_single (r : vec) :
  softmax_dim0 [r] = [repeat 1 (length r)].
Proof.
  unfold softmax_dim0. simpl. f_equal.
  assert (H : forall k n, (k + n <= length r)%nat ->
            map (fun j => exp (nth j r 0) / (exp (nth j r 0) + 0)) (seq k n)
            = repeat 1 n).
  { intros k n; revert k; induction n as [|n IH]; intros k Hk; simpl; auto.
    rewrite IH by lia. f_equal. pose proof (exp_pos (nth k r 0)).
    field. lra. }
  apply H. lia.
Qed.

(** ** Content addressing *)

(** Replaces every [exp x] of the goal by a positive variable. *)
Ltac abstract_exp :=
  repeat match goal with
         | |- context [exp ?x] =>
             let e := fresh "e" in
             let He := fresh "He" in
             pose proof (exp_pos x) as He; set (e := exp x) in *; clearbody e
         end.

(** Whatever the key, the strength and the memory, the write addressing of
    a batch element is a single row of ones: its softmax runs along the
    dimension added by [unsqueeze(dim=0)]. *)
Lemma write_addressing_ones (s : Memory) (key strength : mat) (m : mat) :
  In m (write_addressing_ s key strength) ->
  exists n, m = [repeat 1 n].
Proof.
  unfold write_addressing_. rewrite in_map_iff. intros (i & <- & _).
  unfold mop. rewrite bzip_single_l. simpl map.
  rewrite softmax_dim0_single. eauto.
Qed.

Lemma vsum_repeat_1 (n : nat) : vsum (repeat 1 n) = INR n.
Proof.
  induction n as [|n IH]; [reflexivity|].
  rewrite S_INR. simpl repeat. simpl vsum. fold (vsum (repeat 1 n)).
  rewrite IH. lra.
Qed.

(** The read addressing of head [j] of batch element [i] is the softmax of
    the cosine similarities scaled by the strength of that head. *)
Lemma read_addressing_nth (s : Memory) (key strength : tensor3) i j k sg :
  (i < batch_size s)%nat -> (j < num_read_heads s)%nat ->
  length (nth i strength []) = num_read_heads s ->
  nth j (nth i key []) [] = k ->
  nth j (nth i strength []) [] = [sg] ->
  (i < length key)%nat -> (j < length (nth i key []))%nat ->
  nth j (nth i (read_addressing_ s key strength) []) [] =
  map (fun x => x * sg) (softmax (map (cosine k) (nth i (memory s) []))).
Proof.
  intros Hi Hj Hlen Hk Hsg Hik Hjk. unfold read_addressing_.
  rewrite nth_map_seq by assumption. cbv zeta.
  unfold mop. rewrite bzip_same_length
    by (rewrite length_map, length_seq; symmetry; assumption).
  rewrite (zip_with_nth (vop Rmult) _ _ j [] [] [])
    by (rewrite ?length_map, ?length_seq; lia).
  rewrite nth_map_seq by assumption. rewrite Hsg.
  unfold vop. rewrite bzip_single_r.
  rewrite (nth_map_lt _ key i _ []) by assumption. cbv beta.
  rewrite (nth_map_lt _ _ j _ (@nil R)) by assumption.
  unfold cos_similarity. rewrite bzip_single_l.
  subst k. reflexivity.
Qed.

(** The read addressing of a head sums to the strength of that head, not
    to 1: the strength is applied after the softmax. *)
Lemma read_addressing_sum (s : Memory) (key strength : tensor3) i j sg :
  (i < batch_size s)%nat -> (j < num_read_heads s)%nat ->
  length (nth i strength []) = num_read_heads s ->
  nth j (nth i strength []) [] = [sg] ->
  (i < length key)%nat -> (j < length (nth i key []))%nat ->
  nth i (memory s) [] <> [] ->
  vsum (nth j (nth i (read_addressing_ s key strength) []) []) = sg.
Proof.
  intros Hi Hj Hlen Hsg Hik Hjk Hm.
  erewrite read_addressing_nth by eauto.
  rewrite vsum_scale, softmax_sum; [lra|].
  destruct (nth i (memory s) []); [congruence | discriminate].
Qed.

(** C1 (test inputs of [test_get_content_addressing] and
    [test_update_write_weight]): on the memory of the unit tests the write
    addressing of each batch element sums to the number of rows, 3, and
    the read addressing of a head sums to the strength of that head, here
    1, 2, 2 and 1, so the weights over the rows do not sum to 1. *)
Theorem content_addressing_sums_on_tests :
  map (map vsum)
    (write_addressing_ test_module test_write_keys test_write_strength)
  = [ [3]; [3] ] /\
  map (map vsum)
    (read_addressing_ test_module test_read_keys test_read_strength)
  = [ [1; 2]; [2; 1] ].
Proof.
  split.
  - cbv [write_addressing_ test_module batch_size memory test_memory
           test_write_keys test_write_strength map seq nth mop vop bzip
           cos_similarity].
    rewrite !softmax_dim0_single.
    cbv [length repeat map vsum fold_right].
    repeat f_equal; lra.
  - cbv [read_addressing_ test_module batch_size num_read_heads memory
           test_memory test_read_keys test_read_strength map seq nth mop vop
           bzip zip_with cos_similarity softmax vsum fold_right].
    abstract_exp. repeat f_equal; field; lra.
Qed.

(** ** Allocation weighting *)

Lemma insert_idx_length p l : length (insert_idx p l) = S (length l).
Proof.
  induction l as [|q l IH]; simpl; [reflexivity|].
  destruct (Rle_dec (snd p) (snd q)); simpl; auto.
Qed.

Lemma argsort_length (v : vec) : length (argsort v) = length v.
Proof.
  unfold argsort. rewrite length_map.
  assert (H : forall l : list (nat * R),
             length (fold_right insert_idx [] l) = length l).
  { induction l as [|p l IH]; simpl; [reflexivity|].
    rewrite insert_idx_length, IH. reflexivity. }
  rewrite H, length_combine, length_seq. apply Nat.min_id.
Qed.

Lemma upd_app (pre : vec) (x y : R) (r : vec) :
  upd (length pre) x (pre ++ y :: r) = pre ++ x :: r.
Proof. induction pre as [|z pre IH]; simpl; [reflexivity | now rewrite IH]. Qed.

(** The loop over the columns of one row computes [alloc_from]. *)
Lemma row_loop (u : vec) :
  forall (pre pre' a : vec) (mult : R),
    length pre' = length pre -> length a = length u ->
    fold_left (row_step (pre' ++ u)) (seq (length pre) (length u))
      (pre ++ a, mult)
    = (pre ++ alloc_from mult u, mult * vprod u).
Proof.
  induction u as [|x u IH]; intros pre pre' a mult Hp Ha.
  - destruct a; [|discriminate]. simpl. f_equal. lra.
  - destruct a as [|y a]; [discriminate|]. simpl length. simpl seq.
    simpl fold_left. unfold row_step at 2. cbn [fst snd].
    assert (Hx : nth (length pre) (pre' ++ x :: u) 0 = x)
      by (rewrite <- Hp; apply nth_middle).
    rewrite Hx, upd_app.
    replace (pre ++ (1 - x) * mult :: a)
      with ((pre ++ [(1 - x) * mult]) ++ a)
      by (rewrite <- app_assoc; reflexivity).
    replace (pre' ++ x :: u) with ((pre' ++ [x]) ++ u)
      by (rewrite <- app_assoc; reflexivity).
    replace (S (length pre)) with (length (pre ++ [(1 - x) * mult]))
      by (rewrite length_app; simpl; lia).
    rewrite IH.
    + rewrite <- app_assoc. simpl. f_equal. lra.
    + rewrite !length_app. simpl. lia.
    + simpl in Ha. lia.
Qed.

Lemma rows_loop_cons (u : vec) (us : list vec) (l : list nat) :
  forall (a : vec) (rows : list vec) (x : R) (xs : list R),
    fold_left (rows_step (u :: us)) l (a :: rows, x :: xs)
    = (fst (fold_left (row_step u) l (a, x))
         :: fst (fold_left (rows_step us) l (rows, xs)),
       snd (fold_left (row_step u) l (a, x))
         :: snd (fold_left (rows_step us) l (rows, xs))).
Proof.
  induction l as [|i l IH]; intros a rows x xs; [reflexivity|].
  simpl fold_left. unfold rows_step at 2. cbn [fst snd map zip_with].
  rewrite IH. reflexivity.
Qed.

(** The loop over the columns, on the rows of all batch elements. *)
Lemma rows_loop (n : nat) (us : list vec) :
  forall rows : list vec,
    length rows = length us ->
    Forall (shape1 n) us -> Forall (shape1 n) rows ->
    fold_left (rows_step us) (seq 0 n) (rows, repeat 1 (length us))
    = (map (alloc_from 1) us, map vprod us).
Proof.
  induction us as [|u us IH]; intros rows Hlen Hus Hrows.
  - destruct rows; [|discriminate]. simpl.
    assert (H : forall l, fold_left (rows_step []) l ([], []) = ([], [])).
    { induction l as [|i l IHl]; [reflexivity|]. simpl. apply IHl. }
    apply H.
  - destruct rows as [|a rows]; [discriminate|].
    inversion Hus as [|? ? Hu Hus']; inversion Hrows as [|? ? Ha Hrows'];
      subst.
    simpl length. simpl repeat. rewrite rows_loop_cons.
    rewrite IH by (simpl in Hlen; auto; lia).
    unfold shape1 in Hu, Ha.
    pose proof (row_loop u [] [] a 1 eq_refl) as Hrow.
    cbn [app length] in Hrow. rewrite Hu in Hrow. rewrite Hrow by lia.
    cbn [fst snd map]. f_equal. f_equal. lra.
Qed.

Lemma shape3_wrap (b n : nat) (t : tensor3) :
  shape3 b 1 n t ->
  exists rows, t = map wrap rows /\ length rows = b /\ Forall (shape1 n) rows.
Proof.
  intros [Hlen Hall]. revert b Hlen.
  induction Hall as [|m t [Hm Hr] Hall IH]; intros b Hlen.
  - exists []. simpl in *. repeat split; auto.
  - destruct (IH (length t) eq_refl) as (rows & -> & Hl & Hrows).
    destruct m as [|r [|r' m]]; try discriminate.
    exists (r :: rows). simpl in *. inversion Hr; subst.
    repeat split; auto.
Qed.

Lemma wrap_shape3 (n : nat) (rows : list vec) :
  Forall (shape1 n) rows -> shape3 (length rows) 1 n (map wrap rows).
Proof.
  intros H. split; [apply length_map|].
  induction H; simpl; constructor; auto. split; [reflexivity|].
  constructor; auto.
Qed.

Lemma mult_step_wrap (i : nat) (us : list vec) :
  forall xs : list R,
    zip_with (vop Rmult) (map wrap xs) (get_last i (map wrap us))
    = map wrap (zip_with Rmult xs (map (fun u => nth i u 0) us)).
Proof.
  induction us as [|u us IH]; intros [|x xs]; try reflexivity.
  cbn [map zip_with get_last wrap vop bzip]. f_equal. apply IH.
Qed.

Lemma alloc_step_wrap (i : nat) (us : list vec) :
  forall (rows : list vec) (xs : list R),
    set_last i (map wrap rows)
      (zip_with (vop Rmult)
         (map (map (fun x => 1 - x)) (get_last i (map wrap us)))
         (map wrap xs))
    = map wrap
        (zip_with (fun r x => upd i x r) rows
           (zip_with Rmult (map (fun u => 1 - nth i u 0) us) xs)).
Proof.
  induction us as [|u us IH]; intros rows xs.
  - destruct rows; reflexivity.
  - destruct xs as [|x xs]; [destruct rows; reflexivity|].
    destruct rows as [|r rows]; [reflexivity|].
    cbn [map zip_with get_last set_last wrap vop bzip]. f_equal.
    apply IH.
Qed.

Lemma allocation_step_wrap (us rows : list vec) (xs : list R) (i : nat) :
  length xs = length us ->
  allocation_step (map wrap us) (map wrap rows, map wrap xs) i
  = (map wrap (fst (rows_step us (rows, xs) i)),
     map wrap (snd (rows_step us (rows, xs) i))).
Proof.
  intros Hlen. unfold allocation_step, rows_step, mop. cbn [fst snd].
  rewrite !bzip_same_length
    by (unfold get_last; rewrite !length_map; lia).
  rewrite alloc_step_wrap, mult_step_wrap. reflexivity.
Qed.

Lemma allocation_loop_wrap (us : list vec) (l : list nat) :
  forall (rows : list vec) (xs : list R),
    length xs = length us ->
    fold_left (allocation_step (map wrap us)) l (map wrap rows, map wrap xs)
    = (map wrap (fst (fold_left (rows_step us) l (rows, xs))),
       map wrap (snd (fold_left (rows_step us) l (rows, xs)))).
Proof.
  induction l as [|i l IH]; intros rows xs Hlen; [reflexivity|].
  cbn [fold_left]. rewrite allocation_step_wrap by assumption.
  rewrite IH.
  - destruct (rows_step us (rows, xs) i); reflexivity.
  - unfold rows_step. cbn [snd].
    rewrite zip_with_length, length_map. lia.
Qed.

(** On well-shaped tensors [get_allocation_] stores, for every batch
    element, the row [alloc_from 1 u] computed from its usage row [u]. *)
Lemma get_allocation_rows (s : Memory) (n : nat) (us : list vec) :
  usage s = map wrap us -> Forall (shape1 n) us ->
  shape3 (length us) 1 n (allocation s) ->
  batch_size s = length us ->
  allocation (get_allocation_ s) = map wrap (map (alloc_from 1) us).
Proof.
  intros Hu Hus Ha Hb.
  destruct (shape3_wrap _ _ _ Ha) as (rows & Hrows & Hlen & Hsh).
  unfold get_allocation_. cbn [allocation set_allocation].
  rewrite Hu, Hrows, Hb.
  replace (ones2 (length us) 1) with (map wrap (repeat 1 (length us)))
    by (unfold ones2; rewrite map_repeat; reflexivity).
  rewrite allocation_loop_wrap by apply repeat_length. cbn [fst].
  destruct us as [|u us].
  - destruct rows; [reflexivity | discriminate].
  - cbn [sort_idx map hd wrap]. rewrite argsort_length.
    pose proof (Forall_inv Hus) as Hn. unfold shape1 in Hn. rewrite Hn.
    rewrite (rows_loop n (u :: us) rows) by assumption. reflexivity.
Qed.

Lemma alloc_from_sum (u : vec) :
  forall mult, vsum (alloc_from mult u) = mult * (1 - vprod u).
Proof.
  induction u as [|x u IH]; intros mult; simpl; [lra|].
  fold (vsum (alloc_from (mult * x) u)). rewrite IH.
  fold (vprod u). lra.
Qed.

Lemma vprod_in01 (u : vec) : Forall in01 u -> in01 (vprod u).
Proof.
  unfold in01. induction 1 as [|x u Hx Hu IH]; simpl; [lra|].
  fold (vprod u). nra.
Qed.

Lemma alloc_from_in01 (u : vec) :
  forall mult, in01 mult -> Forall in01 u -> Forall in01 (alloc_from mult u).
Proof.
  unfold in01.
  induction u as [|x u IH]; intros mult Hm Hu; simpl; constructor.
  - inversion Hu; subst. nra.
  - inversion Hu; subst. apply IH; auto. nra.
Qed.

Lemma row0_wrap (b : nat) (rows : list vec) :
  row0 b (map wrap rows) = nth b rows [].
Proof.
  unfold row0.
  destruct (Nat.lt_ge_cases b (length rows)) as [H|H].
  - rewrite (nth_map_lt _ rows b _ (@nil R)) by lia. reflexivity.
  - rewrite (nth_overflow (map wrap rows)) by (rewrite length_map; lia).
    rewrite (nth_overflow rows) by lia. reflexivity.
Qed.

(** C10: for a usage tensor with entries in [0,1], the allocation weights
    that [get_allocation_] returns for a batch element are each in [0,1],
    they sum over the rows to 1 minus the product of the usage entries of
    that batch element, and so to at most 1. *)
Theorem allocation_sum_one_minus_product (s : Memory) (b n i : nat) :
  shape3 b 1 n (usage s) -> shape3 b 1 n (allocation s) ->
  batch_size s = b ->
  Forall (Forall (Forall in01)) (usage s) ->
  (i < b)%nat ->
  let a := row0 i (allocation (get_allocation_ s)) in
  Forall in01 a /\
  vsum a = 1 - vprod (row0 i (usage s)) /\
  vsum a <= 1.
Proof.
  intros Hu Ha Hb H01 Hi.
  destruct (shape3_wrap _ _ _ Hu) as (us & Hus & Hlen & Hsh).
  assert (Hb' : batch_size s = length us) by lia.
  assert (Ha' : shape3 (length us) 1 n (allocation s))
    by (rewrite Hlen; assumption).
  cbv zeta. rewrite (get_allocation_rows s n us) by assumption.
  rewrite Hus, !row0_wrap.
  rewrite (nth_map_lt _ us i _ []) by lia.
  assert (Hin : Forall in01 (nth i us [])).
  { rewrite Hus in H01. rewrite Forall_forall in H01.
    specialize (H01 (wrap (nth i us []))).
    assert (Hw : In (wrap (nth i us [])) (map wrap us))
      by (apply in_map, nth_In; lia).
    specialize (H01 Hw). inversion H01; assumption. }
  rewrite alloc_from_sum.
  pose proof (vprod_in01 _ Hin) as Hp. unfold in01 in Hp.
  repeat split; try lra.
  apply alloc_from_in01; [unfold in01; lra | assumption].
Qed.

Lemma two_rows_allocation :
  allocation (get_allocation_ two_rows) = [ [ [1 / 2; 3 / 8] ] ].
Proof.
  rewrite (get_allocation_rows two_rows 2 [ [1 / 2; 1 / 4] ]).
  - cbv [map wrap alloc_from]. tensor_eq.
  - reflexivity.
  - repeat constructor.
  - repeat constructor.
  - reflexivity.
Qed.

(** The witness of C10: the two-row module. *)
Lemma allocation_sum_one_minus_product_witness :
  let a := row0 0 (allocation (get_allocation_ two_rows)) in
  Forall in01 a /\
  vsum a = 1 - vprod (row0 0 (usage two_rows)) /\
  vsum a <= 1.
Proof.
  apply (allocation_sum_one_minus_product two_rows 1 2 0).
  - repeat constructor.
  - repeat constructor.
  - reflexivity.
  - cbv [two_rows usage in01]. repeat constructor; lra.
  - lia.
Defined.

(** C2 (usage [1/2, 1/4] in one batch element): [get_allocation_] computes
    the sorting permutation and never uses it.  It walks the rows in storage
    order and returns [1/2, 3/8]; walking them by ascending usage and
    mapping the weights back gives [1/8, 3/4]. *)
Theorem allocation_ignores_sorted_order :
  allocation (get_allocation_ two_rows) = [ [ [1 / 2; 3 / 8] ] ] /\
  map (map allocation_by_rank) (usage two_rows) = [ [ [1 / 8; 3 / 4] ] ].
Proof.
  split; [apply two_rows_allocation|].
  cbv [usage two_rows map allocation_by_rank argsort length seq combine
         fold_right insert_idx snd fst].
  destruct (Rle_dec (1 / 2) (1 / 4)) as [H|_]; [exfalso; lra|].
  cbv [map fst snd nth alloc_from fold_left combine upd repeat length].
  tensor_eq.
Qed.

(** C3 (usage [1/2, 1/4] in one batch element): the second row has the
    lower usage and yet receives the lower allocation weight, 3/8 against
    1/2. *)
Theorem allocation_not_monotone_in_usage :
  let u := row0 0 (usage two_rows) in
  let a := row0 0 (allocation (get_allocation_ two_rows)) in
  nth 1 u 0 < nth 0 u 0 /\ nth 1 a 0 < nth 0 a 0.
Proof.
  cbv zeta. rewrite two_rows_allocation.
  cbv [row0 nth usage two_rows]. lra.
Qed.

(** ** The read and write cycle on small modules *)

(** Unfolds the tensor operations of a step on explicit tensors, down to
    arithmetic on the entries. *)
Ltac run_step :=
  cbv [forward get_read_weight_ get_allocation_ write_weights_of
       blend_write_weights write_memory update_temporal_link
       update_precedence update_usage retention retention_step
       read_addressing_ write_addressing_ allocation_step sort_idx argsort
       insert_idx set_read_weights set_allocation transpose12 transpose
       matmul bmm top mop vop bzip zip_with tmap one_minus vsum msum tsum dot
       ncols column repeat_last repeat_rows ones3 ones2 upd get_last set_last
       get_mid slice_last cos_similarity softmax softmax_dim0
       memory_size num_read_heads batch_size memory temporal_link usage
       allocation precedence read_weights
       write_key write_strength allocation_gate write_gate erase_vector
       write_vector read_keys read_strength read_modes free_gates
       map seq nth hd length fold_left fold_right concat repeat app combine
       fst snd
       one_cell write_value write_nothing one_cell_written two_cells
       write_gates two_cells_written];
  abstract_exp;
  repeat match goal with
         | He : 0 < ?e |- context [?e / (?e + 0)] =>
             replace (e / (e + 0)) with 1 by (field; lra)
         end.

Ltac step_eq :=
  run_step;
  repeat lazymatch goal with
    | |- (_, _) = (_, _) => apply f_equal2
    | |- mkMemory _ _ _ _ _ _ _ _ _ = mkMemory _ _ _ _ _ _ _ _ _ => f_equal
    end;
  tensor_eq.


Lemma two_cells_first_step :
  forward two_cells (write_gates 1 1)
  = (two_cells_written, [ [ [0] ]; [ [0] ] ]).
Proof. step_eq. Qed.








(** ** The order of the phases of a step *)








(** ** Shapes and constant tensors *)

Section Broadcast.
Context {A B C : Type}.
Variable f : A -> B -> C.

Lemma bzip_length_same (a : list A) (b : list B) :
  length a = length b -> length (bzip f a b) = length a.
Proof.
  intros H. rewrite bzip_same_length, zip_with_length by assumption. lia.
Qed.

Lemma bzip_length_single_r (a : list A) (y : B) :
  length (bzip f a [y]) = length a.
Proof. rewrite bzip_single_r. apply length_map. Qed.

Lemma zip_with_Forall (P : A -> Prop) (Q : B -> Prop) (R : C -> Prop) :
  (forall x y, P x -> Q y -> R (f x y)) ->
  forall a b, Forall P a -> Forall Q b -> Forall R (zip_with f a b).
Proof.
  intros Hf a b Ha. revert b.
  induction Ha as [|x a Hx Ha IH]; intros b Hb; [constructor|].
  destruct Hb as [|y b Hy Hb]; simpl; constructor; auto.
Qed.

(** Broadcasting keeps whatever the operation keeps entry by entry. *)
Lemma bzip_Forall (P : A -> Prop) (Q : B -> Prop) (R : C -> Prop) :
  (forall x y, P x -> Q y -> R (f x y)) ->
  forall a b, Forall P a -> Forall Q b -> Forall R (bzip f a b).
Proof.
  intros Hf a b Ha Hb.
  destruct a as [|x [|x' a]].
  - destruct b as [|y [|y' b]]; simpl; constructor.
  - rewrite bzip_single_l. apply Forall_map.
    apply Forall_impl with (P := Q); [|assumption].
    intros y Hy. apply Hf; [apply (Forall_inv Ha) | assumption].
  - destruct b as [|y [|y' b]].
    + constructor.
    + rewrite bzip_single_r. apply Forall_map.
      apply Forall_impl with (P := P); [|assumption].
      intros x0 Hx0. apply Hf; [assumption | apply (Forall_inv Hb)].
    + change (bzip f (x :: x' :: a) (y :: y' :: b))
        with (zip_with f (x :: x' :: a) (y :: y' :: b)).
      apply zip_with_Forall with (P := P) (Q := Q); assumption.
Qed.

Lemma zip_with_repeat_r (a : list A) (y : B) :
  zip_with f a (repeat y (length a)) = map (fun x => f x y) a.
Proof. induction a as [|x a IH]; simpl; congruence. Qed.


Lemma bzip_repeat_r (a : list A) (y : B) :
  bzip f a (repeat y (length a)) = map (fun x => f x y) a.
Proof.
  rewrite bzip_same_length by (rewrite repeat_length; reflexivity).
  apply zip_with_repeat_r.
Qed.

End Broadcast.

Lemma map_ext_Forall_eq {A B : Type} (P : A -> Prop) (g h : A -> B) (l : list A) :
  (forall x, P x -> g x = h x) -> Forall P l -> map g l = map h l.
Proof. intros Hgh H. induction H; simpl; f_equal; auto. Qed.

Lemma map_id_Forall {A : Type} (P : A -> Prop) (g : A -> A) (l : list A) :
  (forall x, P x -> g x = x) -> Forall P l -> map g l = l.
Proof. intros Hg H. induction H; simpl; f_equal; auto. Qed.

(** Combining a tensor with a constant tensor of its shape. *)
Lemma top_const_r (f : R -> R -> R) (k : R) (a b c : nat) (t : tensor3) :
  shape3 a b c t -> top f t (const3 a b c k) = tmap (fun x => f x k) t.
Proof.
  intros [Ha Hb]. unfold top, const3, tmap. rewrite <- Ha, bzip_repeat_r.
  apply map_ext_Forall_eq with (P := shape2 b c); [|assumption].
  intros m [Hm Hr]. unfold mop. rewrite <- Hm, bzip_repeat_r.
  apply map_ext_Forall_eq with (P := shape1 c); [|assumption].
  intros v Hv. unfold vop, shape1 in *. rewrite <- Hv. apply bzip_repeat_r.
Qed.







Lemma tmap_shape (g : R -> R) (a b c : nat) (t : tensor3) :
  shape3 a b c t -> shape3 a b c (tmap g t).
Proof.
  intros [Ha Hb]. unfold tmap. split; [rewrite length_map; assumption|].
  apply Forall_map. apply Forall_impl with (P := shape2 b c); [|assumption].
  intros m [Hm Hr]. split; [rewrite length_map; assumption|].
  apply Forall_map. apply Forall_impl with (P := shape1 c); [|assumption].
  intros v Hv. unfold shape1 in *. rewrite length_map. assumption.
Qed.

Lemma shape2_nth (a b i : nat) (m : mat) :
  shape2 a b m -> (i < a)%nat -> shape1 b (nth i m []).
Proof.
  intros [Ha Hb] Hi. rewrite Forall_forall in Hb. apply Hb, nth_In. lia.
Qed.

Lemma shape3_nth (a b c i : nat) (t : tensor3) :
  shape3 a b c t -> (i < a)%nat -> shape2 b c (nth i t []).
Proof.
  intros [Ha Hb] Hi. rewrite Forall_forall in Hb. apply Hb, nth_In. lia.
Qed.




(** A gate of shape (a, b, 1) on the left of a tensor of shape (a, b, c). *)
Lemma top_gate_l_shape (f : R -> R -> R) (a b c : nat) (g x : tensor3) :
  shape3 a b 1 g -> shape3 a b c x -> shape3 a b c (top f g x).
Proof.
  intros [Hg Hgr] [Hx Hxr]. unfold top. split.
  - rewrite bzip_length_same; congruence.
  - apply bzip_Forall with (P := shape2 b 1) (Q := shape2 b c); auto.
    intros m m' [Hm Hmr] [Hm' Hmr']. unfold mop. split.
    + rewrite bzip_length_same; congruence.
    + apply bzip_Forall with (P := shape1 1) (Q := shape1 c); auto.
      intros v v' Hv Hv'. unfold shape1, vop in *.
      destruct v as [|y [|y' v]]; try discriminate.
      rewrite bzip_single_l, length_map. assumption.
Qed.


Lemma map_seq_const {A : Type} (g : nat -> A) (k : A) (n : nat) :
  (forall i, (i < n)%nat -> g i = k) -> map g (seq 0 n) = repeat k n.
Proof.
  intros H.
  assert (G : forall s m, (s + m <= n)%nat -> map g (seq s m) = repeat k m).
  { intros s m; revert s; induction m as [|m IH]; intros s Hs; simpl; auto.
    rewrite H, IH by lia. reflexivity. }
  apply G. lia.
Qed.


Lemma nth_repeat_lt {A : Type} (k d : A) (n i : nat) :
  (i < n)%nat -> nth i (repeat k n) d = k.
Proof.
  revert i; induction n as [|n IH]; intros [|i] H; simpl; try lia; auto.
  apply IH. lia.
Qed.


(** The write addressing of a well-shaped module is the all-ones tensor. *)
Lemma write_addressing_ones3 (b n w r : nat) (s : Memory) (key strength : mat) :
  wf_memory b n w r s -> shape2 b w key -> shape2 b 1 strength ->
  write_addressing_ s key strength = const3 b 1 n 1.
Proof.
  intros Hs Hk Hst. unfold write_addressing_, const3.
  rewrite (wf_batch_size _ _ _ _ _ Hs).
  apply map_seq_const. intros i Hi.
  unfold mop. rewrite bzip_single_l. cbn [map].
  rewrite softmax_dim0_single. simpl repeat. do 2 f_equal.
  pose proof (shape2_nth _ _ i _ Hst Hi) as Hsi. unfold shape1 in Hsi.
  destruct (nth i strength []) as [|sg [|sg' st]]; try discriminate.
  unfold vop. rewrite bzip_length_single_r.
  rewrite (nth_map_lt _ key i _ (@nil R)) by (destruct Hk; lia).
  unfold cos_similarity. rewrite bzip_single_l, length_map.
  apply (shape3_nth _ _ _ i _ (wf_mem _ _ _ _ _ Hs) Hi).
Qed.

Lemma alloc_from_length (u : vec) :
  forall mult, length (alloc_from mult u) = length u.
Proof. induction u as [|x u IH]; intros mult; simpl; auto. Qed.

(** The allocation tensor after [get_allocation_], in a well-shaped
    module whose usage rows are [us]. *)
Lemma get_allocation_wf (b n w r : nat) (s : Memory) :
  wf_memory b n w r s ->
  exists us,
    usage s = map wrap us /\ length us = b /\ Forall (shape1 n) us /\
    allocation (get_allocation_ s) = map wrap (map (alloc_from 1) us).
Proof.
  intros Hs.
  destruct (shape3_wrap _ _ _ (wf_usage _ _ _ _ _ Hs))
    as (us & Hus & Hlen & Hsh).
  exists us. repeat split; auto.
  apply (get_allocation_rows s n us); auto.
  - rewrite Hlen. apply (wf_allocation _ _ _ _ _ Hs).
  - rewrite Hlen. apply (wf_batch_size _ _ _ _ _ Hs).
Qed.

Lemma get_allocation_shape (b n w r : nat) (s : Memory) :
  wf_memory b n w r s -> shape3 b 1 n (allocation (get_allocation_ s)).
Proof.
  intros Hs. destruct (get_allocation_wf _ _ _ _ _ Hs)
    as (us & Hus & Hlen & Hsh & ->).
  rewrite <- Hlen, <- (length_map (alloc_from 1) us).
  apply wrap_shape3. apply Forall_map.
  apply Forall_impl with (P := shape1 n); [|assumption].
  intros u Hu. unfold shape1 in *. rewrite alloc_from_length. assumption.
Qed.



(** The blend of the write weights, the content addressing being 1
    everywhere. *)
Lemma step_write_weights_eq (b n w r : nat) (s : Memory) (itf : Interface) :
  wf_memory b n w r s -> wf_interface b w r itf ->
  step_write_weights s itf
  = top Rmult
      (tmap (fun x => x + 1)
         (top Rmult (allocation_gate itf)
            (tmap (fun a => a - 1) (allocation (get_allocation_ s)))))
      (write_gate itf).
Proof.
  intros Hs Hi. unfold step_write_weights, blend_write_weights.
  rewrite (write_addressing_ones3 b n w r)
    by (auto; apply Hi).
  pose proof (get_allocation_shape _ _ _ _ _ Hs) as Ha.
  rewrite (top_const_r Rminus 1 b 1 n) by assumption.
  rewrite (top_const_r Rplus 1 b 1 n); [reflexivity|].
  apply top_gate_l_shape; [apply Hi | apply tmap_shape; assumption].
Qed.









(** ** A step with the write gate closed *)





(** ** The temporal link, entry by entry *)









Lemma top_nth (f : R -> R -> R) (x y : tensor3) (i : nat) :
  length x = length y -> (i < length x)%nat ->
  nth i (top f x y) [] = mop f (nth i x []) (nth i y []).
Proof.
  intros Hl Hi. unfold top. rewrite bzip_same_length by assumption.
  apply zip_with_nth; lia.
Qed.


Lemma shape2_single (n : nat) (m : mat) :
  shape2 1 n m -> m = [nth 0 m []] /\ shape1 n (nth 0 m []).
Proof.
  intros [Hl Hr]. destruct m as [|v [|v' m]]; try discriminate.
  split; [reflexivity | apply (Forall_inv Hr)].
Qed.



Lemma write_value_wf (v fg : R) : wf_interface 1 1 1 (write_value v fg).
Proof. split; repeat constructor. Qed.


(** ** Signs and bounds of the entries *)

Section Fusion.
Context {A B C D E : Type}.
Variables (f : C -> D -> E) (g : A -> B -> C) (h : A -> B -> D).



End Fusion.



Lemma top_all3 (P Q S : R -> Prop) (f : R -> R -> R) (x y : tensor3) :
  (forall u v, P u -> Q v -> S (f u v)) ->
  all3 P x -> all3 Q y -> all3 S (top f x y).
Proof.
  intros Hf Hx Hy. unfold all3, top in *.
  apply bzip_Forall with (P := Forall (Forall P)) (Q := Forall (Forall Q));
    auto.
  intros m m' Hm Hm'. unfold mop.
  apply bzip_Forall with (P := Forall P) (Q := Forall Q); auto.
  intros v v' Hv Hv'. unfold vop.
  apply bzip_Forall with (P := P) (Q := Q); auto.
Qed.

Lemma tmap_all3 (P Q : R -> Prop) (g : R -> R) (t : tensor3) :
  (forall u, P u -> Q (g u)) -> all3 P t -> all3 Q (tmap g t).
Proof.
  intros Hg Ht. unfold all3, tmap in *.
  apply Forall_map. eapply Forall_impl; [|exact Ht]. intros m Hm.
  apply Forall_map. eapply Forall_impl; [|exact Hm]. intros v Hv.
  apply Forall_map. eapply Forall_impl; [|exact Hv]. auto.
Qed.











Lemma softmax_nonneg (v : vec) : Forall nonneg (softmax v).
Proof.
  unfold softmax. apply Forall_map, Forall_forall. intros x Hx.
  assert (Hv : v <> []) by (intros ->; contradiction).
  pose proof (vsum_exp_pos v Hv). pose proof (exp_pos x).
  unfold nonneg. apply Rlt_le, Rdiv_lt_0_compat; assumption.
Qed.





Lemma top_mult_01 (x y : tensor3) :
  all01 x -> all01 y -> all01 (top Rmult x y).
Proof. apply top_all3. unfold in01. intros; nra. Qed.


Lemma get_allocation_01 (b n w r : nat) (s : Memory) :
  wf_memory b n w r s -> all01 (usage s) ->
  all01 (allocation (get_allocation_ s)).
Proof.
  intros Hs Hu.
  destruct (get_allocation_wf _ _ _ _ _ Hs) as (us & Hus & _ & _ & ->).
  rewrite Hus in Hu. unfold all01, all3 in *.
  rewrite map_map. apply Forall_map.
  rewrite Forall_map in Hu.
  eapply Forall_impl; [|exact Hu]. intros u H01.
  constructor; [|constructor].
  apply alloc_from_in01; [unfold in01; lra | apply (Forall_inv H01)].
Qed.

(** The write weights of a step are in [0,1]. *)
Lemma step_write_weights_01 (b n w r : nat) (s : Memory) (itf : Interface) :
  wf_memory b n w r s -> wf_interface b w r itf ->
  all01 (usage s) -> all01 (allocation_gate itf) -> all01 (write_gate itf) ->
  all01 (step_write_weights s itf).
Proof.
  intros Hs Hi Hu Hag Hwg.
  rewrite (step_write_weights_eq b n w r) by assumption.
  apply top_mult_01; [|assumption].
  apply tmap_all3 with (P := fun x => -1 <= x <= 0);
    [unfold in01; intros; lra|].
  apply top_all3 with (P := in01) (Q := fun x => -1 <= x <= 0).
  - unfold in01. intros; nra.
  - assumption.
  - apply tmap_all3 with (P := in01); [unfold in01; intros; lra|].
    apply (get_allocation_01 b n w r); assumption.
Qed.










(** Bounds on the entries of an explicit tensor. *)
Ltac entries :=
  cbv [all01 nonneg3 all3];
  repeat first [apply Forall_nil | apply Forall_cons];
  try assumption; unfold in01, nonneg; lra.



(** ** The shapes of the tensors of a step *)





















(** ** Further properties of the module *)



(** *** Entries of combined tensors *)

Lemma entry_tmap (g : R -> R) (a b c k i j : nat) (t : tensor3) :
  shape3 a b c t -> (k < a)%nat -> (i < b)%nat -> (j < c)%nat ->
  entry k i j (tmap g t) = g (entry k i j t).
Proof.
  intros Ht Hk Hi Hj. unfold entry, tmap.
  pose proof (shape3_nth _ _ _ k _ Ht Hk) as Hm.
  pose proof (shape2_nth _ _ i _ Hm Hi) as Hv. unfold shape1 in Hv.
  destruct Ht as [Ha _], Hm as [Hb _].
  rewrite (nth_map_lt _ t k _ []) by lia.
  rewrite (nth_map_lt _ _ i _ []) by lia.
  rewrite (nth_map_lt _ _ j _ 0) by lia. reflexivity.
Qed.


Lemma mop_gate_r_entry (f : R -> R -> R) (a c i j : nat) (x g : mat) :
  shape2 a c x -> shape2 a 1 g -> (i < a)%nat -> (j < c)%nat ->
  mentry i j (mop f x g) = f (mentry i j x) (mentry i 0 g).
Proof.
  intros Hx Hg Hi Hj. unfold mentry, mop.
  pose proof (shape2_nth _ _ i _ Hx Hi) as Hxi.
  pose proof (shape2_nth _ _ i _ Hg Hi) as Hgi.
  destruct Hx as [Hxl _], Hg as [Hgl _]. unfold shape1 in *.
  rewrite bzip_same_length by congruence.
  rewrite (zip_with_nth (vop f) x g i [] [] []) by lia.
  destruct (nth i g []) as [|y [|y' v]]; try discriminate.
  unfold vop. rewrite bzip_single_r. cbn [nth].
  rewrite (nth_map_lt _ _ j _ 0) by lia. reflexivity.
Qed.

Lemma mop_gate_l_entry (f : R -> R -> R) (a c i j : nat) (g x : mat) :
  shape2 a 1 g -> shape2 a c x -> (i < a)%nat -> (j < c)%nat ->
  mentry i j (mop f g x) = f (mentry i 0 g) (mentry i j x).
Proof.
  intros Hg Hx Hi Hj. unfold mentry, mop.
  pose proof (shape2_nth _ _ i _ Hx Hi) as Hxi.
  pose proof (shape2_nth _ _ i _ Hg Hi) as Hgi.
  destruct Hx as [Hxl _], Hg as [Hgl _]. unfold shape1 in *.
  rewrite bzip_same_length by congruence.
  rewrite (zip_with_nth (vop f) g x i [] [] []) by lia.
  destruct (nth i g []) as [|y [|y' v]]; try discriminate.
  unfold vop. rewrite bzip_single_l. cbn [nth].
  rewrite (nth_map_lt _ _ j _ 0) by lia. reflexivity.
Qed.

Lemma entry_top_gate_r (f : R -> R -> R) (a b c k i j : nat) (x g : tensor3) :
  shape3 a b c x -> shape3 a b 1 g ->
  (k < a)%nat -> (i < b)%nat -> (j < c)%nat ->
  entry k i j (top f x g) = f (entry k i j x) (entry k i 0 g).
Proof.
  intros Hx Hg Hk Hi Hj. unfold entry.
  rewrite top_nth by (destruct Hx, Hg; lia).
  apply (mop_gate_r_entry f b c i j);
    [apply (shape3_nth a) | apply (shape3_nth a) | |]; assumption.
Qed.

Lemma entry_top_gate_l (f : R -> R -> R) (a b c k i j : nat) (g x : tensor3) :
  shape3 a b 1 g -> shape3 a b c x ->
  (k < a)%nat -> (i < b)%nat -> (j < c)%nat ->
  entry k i j (top f g x) = f (entry k i 0 g) (entry k i j x).
Proof.
  intros Hg Hx Hk Hi Hj. unfold entry.
  rewrite top_nth by (destruct Hx, Hg; lia).
  apply (mop_gate_l_entry f b c i j);
    [apply (shape3_nth a) | apply (shape3_nth a) | |]; assumption.
Qed.

(** The write weight of a row, from the gates and the allocation weight. *)
Lemma step_write_weights_entry (b n w r : nat) (s : Memory) (itf : Interface)
  (k i : nat) :
  wf_memory b n w r s -> wf_interface b w r itf ->
  (k < b)%nat -> (i < n)%nat ->
  entry k 0 i (step_write_weights s itf)
  = (entry k 0 0 (allocation_gate itf)
     * (entry k 0 i (allocation (get_allocation_ s)) - 1) + 1)
    * entry k 0 0 (write_gate itf).
Proof.
  intros Hs Hi Hk Hin.
  rewrite (step_write_weights_eq b n w r) by assumption.
  pose proof (get_allocation_shape _ _ _ _ _ Hs) as Ha.
  pose proof (tmap_shape (fun a => a - 1) _ _ _ _ Ha) as Ha1.
  pose proof (top_gate_l_shape Rmult b 1 n _ _
                (wf_allocation_gate _ _ _ _ Hi) Ha1) as Hg.
  rewrite (entry_top_gate_r Rmult b 1 n);
    [| apply tmap_shape; assumption | apply Hi | | |]; try lia.
  rewrite (entry_tmap _ b 1 n), (entry_top_gate_l Rmult b 1 n),
    (entry_tmap _ b 1 n); auto; try lia. apply Hi.
Qed.

(** *** Allocation weights *)

Lemma alloc_from_nth (u : vec) :
  forall mult i, (i < length u)%nat ->
    nth i (alloc_from mult u) 0
    = (1 - nth i u 0) * (mult * vprod (firstn i u)).
Proof.
  induction u as [|x u IH]; intros mult i Hi; simpl in Hi; [lia|].
  destruct i as [|i]; simpl.
  - lra.
  - rewrite IH by lia. fold (vprod (firstn i u)). lra.
Qed.

Lemma get_allocation_entry (b n w r : nat) (s : Memory) (k i : nat) :
  wf_memory b n w r s -> (k < b)%nat -> (i < n)%nat ->
  entry k 0 i (allocation (get_allocation_ s))
  = (1 - entry k 0 i (usage s)) * vprod (firstn i (row0 k (usage s))).
Proof.
  intros Hs Hk Hi.
  destruct (get_allocation_wf _ _ _ _ _ Hs) as (us & Hus & Hlen & Hsh & ->).
  rewrite Hus. unfold entry.
  change (nth 0 (nth k (map wrap (map (alloc_from 1) us)) []) [])
    with (row0 k (map wrap (map (alloc_from 1) us))).
  change (nth 0 (nth k (map wrap us) []) []) with (row0 k (map wrap us)).
  rewrite !row0_wrap. rewrite (nth_map_lt _ us k _ []) by lia.
  rewrite alloc_from_nth; [lra|].
  rewrite Forall_forall in Hsh. rewrite (Hsh (nth k us [])); [lia|].
  apply nth_In. lia.
Qed.

Lemma vprod_zero (v : vec) : In 0 v -> vprod v = 0.
Proof.
  induction v as [|x v IH]; intros H; [contradiction|].
  simpl. fold (vprod v). destruct H as [-> | H]; [lra|].
  rewrite IH by assumption. lra.
Qed.

Lemma two_rows_wf : wf_memory 1 2 1 1 two_rows.
Proof. split; repeat constructor. Qed.

Lemma free_row_first_wf : wf_memory 1 2 1 1 free_row_first.
Proof. split; repeat constructor. Qed.

(** The allocation weight of a row is one minus its usage, times the
    product of the usages of the rows stored before it. *)
Theorem allocation_weight_of_row (b n w r : nat) (s : Memory) (k i : nat) :
  wf_memory b n w r s -> (k < b)%nat -> (i < n)%nat ->
  entry k 0 i (allocation (get_allocation_ s))
  = (1 - entry k 0 i (usage s)) * vprod (firstn i (row0 k (usage s))).
Proof. apply get_allocation_entry. Qed.

Lemma allocation_weight_of_row_witness :
  entry 0 0 1 (allocation (get_allocation_ two_rows))
  = (1 - entry 0 0 1 (usage two_rows))
    * vprod (firstn 1 (row0 0 (usage two_rows))).
Proof.
  apply (allocation_weight_of_row 1 2 1 1 two_rows 0 1).
  - apply two_rows_wf.
  - lia.
  - lia.
Defined.

(** A free row (usage 0) takes the allocation weight of every row stored
    after it: those rows get weight 0, whatever their own usage. *)
Theorem allocation_free_row_blocks_later_rows (b n w r : nat) (s : Memory)
  (k j i : nat) :
  wf_memory b n w r s -> (k < b)%nat -> (j < i)%nat -> (i < n)%nat ->
  entry k 0 j (usage s) = 0 ->
  entry k 0 i (allocation (get_allocation_ s)) = 0.
Proof.
  intros Hs Hk Hji Hi H0.
  rewrite (get_allocation_entry b n w r) by assumption.
  rewrite vprod_zero; [lra|].
  unfold entry in H0. fold (row0 k (usage s)) in H0. rewrite <- H0.
  rewrite <- (firstn_skipn i (row0 k (usage s))) at 1.
  assert (Hlen : length (row0 k (usage s)) = n).
  { destruct (shape2_single _ _
                (shape3_nth _ _ _ k _ (wf_usage _ _ _ _ _ Hs) Hk))
      as [_ H]. exact H. }
  rewrite app_nth1 by (rewrite length_firstn; lia).
  apply nth_In. rewrite length_firstn. lia.
Qed.

Lemma allocation_free_row_blocks_later_rows_witness :
  entry 0 0 1 (allocation (get_allocation_ free_row_first)) = 0.
Proof.
  apply (allocation_free_row_blocks_later_rows 1 2 1 1 free_row_first 0 0 1).
  - apply free_row_first_wf.
  - lia.
  - lia.
  - lia.
  - reflexivity.
Defined.

(** A row of usage 1 gets allocation weight 0, and the first row stored
    always gets one minus its usage. *)
Theorem allocation_of_full_and_first_rows (b n w r : nat) (s : Memory)
  (k i : nat) :
  wf_memory b n w r s -> (k < b)%nat -> (i < n)%nat ->
  (entry k 0 i (usage s) = 1 ->
   entry k 0 i (allocation (get_allocation_ s)) = 0) /\
  entry k 0 0 (allocation (get_allocation_ s)) = 1 - entry k 0 0 (usage s).
Proof.
  intros Hs Hk Hi. split.
  - intros H1. rewrite (get_allocation_entry b n w r) by assumption.
    rewrite H1. lra.
  - rewrite (get_allocation_entry b n w r) by (auto; lia).
    simpl firstn. simpl vprod. lra.
Qed.

Lemma allocation_of_full_and_first_rows_witness :
  (entry 0 0 1 (usage two_rows) = 1 ->
   entry 0 0 1 (allocation (get_allocation_ two_rows)) = 0) /\
  entry 0 0 0 (allocation (get_allocation_ two_rows))
  = 1 - entry 0 0 0 (usage two_rows).
Proof.
  apply (allocation_of_full_and_first_rows 1 2 1 1 two_rows 0 1).
  - apply two_rows_wf.
  - lia.
  - lia.
Defined.

(** *** Write weights *)

(** The write weight of a row blends its allocation weight [a] with the
    content weight, which is 1, and scales by the write gate:
    (allocation_gate * (a - 1) + 1) * write_gate. *)
Theorem write_weight_of_row (b n w r : nat) (s : Memory) (itf : Interface)
  (k i : nat) :
  wf_memory b n w r s -> wf_interface b w r itf ->
  (k < b)%nat -> (i < n)%nat ->
  entry k 0 i (step_write_weights s itf)
  = (entry k 0 0 (allocation_gate itf)
     * (entry k 0 i (allocation (get_allocation_ s)) - 1) + 1)
    * entry k 0 0 (write_gate itf).
Proof. apply step_write_weights_entry. Qed.

Lemma write_weight_of_row_witness :
  entry 0 0 1 (step_write_weights two_rows (write_value 1 0))
  = (entry 0 0 0 (allocation_gate (write_value 1 0))
     * (entry 0 0 1 (allocation (get_allocation_ two_rows)) - 1) + 1)
    * entry 0 0 0 (write_gate (write_value 1 0)).
Proof.
  apply (write_weight_of_row 1 2 1 1 two_rows (write_value 1 0) 0 1).
  - apply two_rows_wf.
  - apply write_value_wf.
  - lia.
  - lia.
Defined.

(** With the allocation gate at 0 every row is written with the full write
    gate, whatever the write key; with the allocation gate at 1 a row is
    written with its allocation weight times the write gate. *)
Theorem write_weights_of_pure_modes (b n w r : nat) (s : Memory)
  (itf : Interface) (k i : nat) :
  wf_memory b n w r s -> wf_interface b w r itf ->
  (k < b)%nat -> (i < n)%nat ->
  (entry k 0 0 (allocation_gate itf) = 0 ->
   entry k 0 i (step_write_weights s itf) = entry k 0 0 (write_gate itf)) /\
  (entry k 0 0 (allocation_gate itf) = 1 ->
   entry k 0 i (step_write_weights s itf)
   = entry k 0 i (allocation (get_allocation_ s))
     * entry k 0 0 (write_gate itf)).
Proof.
  intros Hs Hi Hk Hin.
  rewrite (step_write_weights_entry b n w r) by assumption.
  split; intros ->; lra.
Qed.

Lemma write_weights_of_pure_modes_witness :
  let s := two_rows in
  let itf := write_value 1 0 in
  (entry 0 0 0 (allocation_gate itf) = 0 ->
   entry 0 0 1 (step_write_weights s itf) = entry 0 0 0 (write_gate itf)) /\
  (entry 0 0 0 (allocation_gate itf) = 1 ->
   entry 0 0 1 (step_write_weights s itf)
   = entry 0 0 1 (allocation (get_allocation_ s))
     * entry 0 0 0 (write_gate itf)).
Proof.
  apply (write_weights_of_pure_modes 1 2 1 1 two_rows (write_value 1 0) 0 1).
  - apply two_rows_wf.
  - apply write_value_wf.
  - lia.
  - lia.
Defined.

(** The write weights are in [0,1] when the usage and the two gates are. *)
Theorem write_weights_in_unit_interval (b n w r : nat) (s : Memory)
  (itf : Interface) :
  wf_memory b n w r s -> wf_interface b w r itf ->
  all01 (usage s) -> all01 (allocation_gate itf) -> all01 (write_gate itf) ->
  all01 (step_write_weights s itf).
Proof. apply step_write_weights_01. Qed.

Lemma write_weights_in_unit_interval_witness :
  all01 (step_write_weights two_rows (write_value 1 0)).
Proof.
  apply (write_weights_in_unit_interval 1 2 1 1).
  - apply two_rows_wf.
  - apply write_value_wf.
  - cbv [two_rows usage]. entries.
  - cbv [write_value allocation_gate]. entries.
  - cbv [write_value write_gate]. entries.
Defined.

(** *** The write, the temporal link and the precedence, entry by entry *)








(** *** Usage and the free gates *)










(** *** Content addressing, in general *)

(** The write addressing does not depend on the write key or on the write
    strength: all its entries are 1. *)
Theorem write_addressing_ignores_key (b n w r : nat) (s : Memory)
  (key strength key' strength' : mat) (k i : nat) :
  wf_memory b n w r s ->
  shape2 b w key -> shape2 b 1 strength ->
  shape2 b w key' -> shape2 b 1 strength' ->
  (k < b)%nat -> (i < n)%nat ->
  write_addressing_ s key strength = write_addressing_ s key' strength' /\
  entry k 0 i (write_addressing_ s key strength) = 1.
Proof.
  intros Hs Hk Hst Hk' Hst' Hkb Hin.
  rewrite !(write_addressing_ones3 b n w r) by assumption.
  split; [reflexivity|].
  unfold entry, const3. rewrite !nth_repeat_lt by lia. reflexivity.
Qed.

Lemma test_module_wf : wf_memory 2 3 4 2 test_module.
Proof. split; repeat constructor. Qed.

Lemma write_addressing_ignores_key_witness :
  write_addressing_ test_module test_write_keys test_write_strength
  = write_addressing_ test_module [ [0; 0; 0; 0]; [1; 1; 1; 1] ] [ [3]; [0] ]
  /\ entry 1 0 2
       (write_addressing_ test_module test_write_keys test_write_strength)
     = 1.
Proof.
  apply (write_addressing_ignores_key 2 3 4 2).
  - apply test_module_wf.
  - repeat constructor.
  - repeat constructor.
  - repeat constructor.
  - repeat constructor.
  - lia.
  - lia.
Defined.

(** The read addressing of a head sums over the rows to the read strength
    of that head, and is non-negative when that strength is. *)
Theorem read_addressing_sums_to_strength (b n w r : nat) (s : Memory)
  (key strength : tensor3) (k h : nat) :
  wf_memory b n w r s -> shape3 b r w key -> shape3 b r 1 strength ->
  (0 < n)%nat -> (k < b)%nat -> (h < r)%nat ->
  let a := nth h (nth k (read_addressing_ s key strength) []) [] in
  vsum a = entry k h 0 strength /\
  (0 <= entry k h 0 strength -> Forall nonneg a).
Proof.
  intros Hs Hk Hst Hn Hkb Hhr. cbv zeta.
  pose proof (shape3_nth _ _ _ k _ Hst Hkb) as Hstk.
  pose proof (shape2_nth _ _ h _ Hstk Hhr) as Hsth.
  pose proof (shape3_nth _ _ _ k _ Hk Hkb) as [Hkl _].
  pose proof (shape3_nth _ _ _ k _ (wf_mem _ _ _ _ _ Hs) Hkb) as [Hml _].
  destruct Hstk as [Hstl _]. unfold shape1 in Hsth.
  destruct (nth h (nth k strength []) []) as [|sg [|sg' v]] eqn:E;
    try discriminate.
  assert (Hsg : entry k h 0 strength = sg) by (unfold entry; rewrite E; auto).
  rewrite Hsg.
  assert (Hb : (k < batch_size s)%nat)
    by (rewrite (wf_batch_size _ _ _ _ _ Hs); assumption).
  assert (Hh : (h < num_read_heads s)%nat)
    by (rewrite (wf_num_read_heads _ _ _ _ _ Hs); assumption).
  assert (Hl : length (nth k strength []) = num_read_heads s)
    by (rewrite (wf_num_read_heads _ _ _ _ _ Hs); assumption).
  split.
  - apply read_addressing_sum; auto; try (destruct Hk; lia); try lia.
    intros H0. rewrite H0 in Hml. simpl in Hml. lia.
  - intros Hpos.
    rewrite (read_addressing_nth s key strength k h _ sg Hb Hh Hl eq_refl E)
      by (try (destruct Hk; lia); lia).
    apply Forall_map. eapply Forall_impl; [|apply softmax_nonneg].
    unfold nonneg. intros; nra.
Qed.

Lemma read_addressing_sums_to_strength_witness :
  let a :=
    nth 1 (nth 0 (read_addressing_ test_module test_read_keys
                    test_read_strength) []) [] in
  vsum a = entry 0 1 0 test_read_strength /\
  (0 <= entry 0 1 0 test_read_strength -> Forall nonneg a).
Proof.
  apply (read_addressing_sums_to_strength 2 3 4 2).
  - apply test_module_wf.
  - repeat constructor.
  - repeat constructor.
  - lia.
  - lia.
  - lia.
Defined.

(** *** Reset *)







(** *** Batch elements in the write *)






(** *** Read weights when nothing was read before *)






